(** * A shallow embedding of rust-blockchain (src/main.rs, src/p2p.rs)

    The consensus core of the node: the [Block] record, the difficulty test
    [hash_to_binary_representation]/[DIFFICULTY_PREFIX], the proof-of-work loop
    [mine_block], the validators [is_block_valid]/[is_chain_valid], the fork
    choice [choose_chain], and the coordinator's handlers for the Init event,
    the command line and inbound gossip.

    Rust panics ([expect], [panic!], overflowing [+] under the default debug
    profile) are the [Panic] outcome of [res]; the unbounded mining loop runs on
    an explicit fuel, and running out of it is [OutOfFuel] (the loop has not
    returned yet). *)

From Stdlib Require Import NArith ZArith List String Ascii Bool Lia.
From Stdlib Require Import Strings.Byte.
Import ListNotations.
Open Scope string_scope.

(** ** Outcomes of Rust code: a value, a panic, or a loop still running. *)

Inductive res (A : Type) : Type :=
| Ok (a : A)
| Panic (msg : string)
| OutOfFuel.
Arguments Ok {A} a.
Arguments Panic {A} msg.
Arguments OutOfFuel {A}.

Definition bind {A B : Type} (m : res A) (k : A -> res B) : res B :=
  match m with
  | Ok a => k a
  | Panic msg => Panic msg
  | OutOfFuel => OutOfFuel
  end.

Notation "x <- m ;; k" := (bind m (fun x => k))
  (at level 61, m at next level, right associativity).

(** [Option::expect]. *)
Definition expect {A : Type} (o : option A) (msg : string) : res A :=
  match o with
  | Some a => Ok a
  | None => Panic msg
  end.

(** [u64 + u64] with overflow checks (debug profile). *)
Definition u64_add (a b : N) : res N :=
  if (a + b <? 2 ^ 64)%N then Ok (a + b)%N
  else Panic "attempt to add with overflow".

(** ** Data model (main.rs:25-37) *)

Record Block : Type := mkBlock {
  block_id : N;         (* u64 *)
  hash : string;
  prev_hash : string;
  timestamp : Z;        (* i64 *)
  data : string;
  nonce : N             (* u64 *)
}.

Record App : Type := mkApp { blockchain : list Block }.

(** [Vec::push]. *)
Definition push (app : App) (b : Block) : App :=
  mkApp (blockchain app ++ [b]).

(** [<[T]>::last]. *)
Fixpoint last_opt {A : Type} (l : list A) : option A :=
  match l with
  | [] => None
  | [x] => Some x
  | _ :: t => last_opt t
  end.

(** ** Strings and bytes *)

(** [str::starts_with]. *)
Definition starts_with (s pre : string) : bool := String.prefix pre s.

(** [str::strip_prefix]. *)
Fixpoint strip_prefix (s pre : string) : option string :=
  match pre, s with
  | EmptyString, _ => Some s
  | String p pre', String c s' =>
      if Ascii.eqb p c then strip_prefix s' pre' else None
  | String _ _, EmptyString => None
  end.

(** One lowercase hexadecimal digit, as the [hex] crate writes it. *)
Definition hex_digit (n : N) : ascii :=
  if (n <? 10)%N then ascii_of_N (48 + n) else ascii_of_N (87 + n).

(** [hex::encode]: two lowercase digits per byte, high nibble first. *)
Fixpoint hex_encode (bs : list byte) : string :=
  match bs with
  | [] => EmptyString
  | b :: t =>
      let n := Byte.to_N b in
      String (hex_digit (n / 16)) (String (hex_digit (n mod 16)) (hex_encode t))
  end.

(** The value of one hexadecimal character ([0-9a-fA-F]), as [hex::decode] reads it. *)
Definition hex_val (c : ascii) : option N :=
  let n := N_of_ascii c in
  if ((48 <=? n) && (n <=? 57))%N then Some (n - 48)%N
  else if ((97 <=? n) && (n <=? 102))%N then Some (n - 87)%N
  else if ((65 <=? n) && (n <=? 70))%N then Some (n - 55)%N
  else None.

(** [hex::decode]: [Err] ([None]) on an odd length or a non-hex character. *)
Fixpoint hex_decode (s : string) : option (list byte) :=
  match s with
  | EmptyString => Some []
  | String _ EmptyString => None
  | String hi (String lo t) =>
      match hex_val hi, hex_val lo, hex_decode t with
      | Some h, Some l, Some rest =>
          match Byte.of_N (h * 16 + l) with
          | Some b => Some (b :: rest)
          | None => None
          end
      | _, _, _ => None
      end
  end.

(** [format!("{:b}", x)] for a [u8]: the radix loop of [core::fmt] writes the
    digits from the least significant one and stops after the digit at which
    [x] reaches 0 (so 0 renders as "0"); a [u8] needs at most 8 iterations. *)
Fixpoint fmt_binary_loop (fuel : nat) (x : N) (acc : string) : string :=
  match fuel with
  | O => acc
  | S f =>
      let acc' := String (if (x mod 2 =? 0)%N then "0"%char else "1"%char) acc in
      let x' := (x / 2)%N in
      if (x' =? 0)%N then acc' else fmt_binary_loop f x' acc'
  end.

Definition fmt_binary (b : byte) : string :=
  fmt_binary_loop 8 (Byte.to_N b) EmptyString.

(** [hash_to_binary_representation] (main.rs:47-53). *)
Fixpoint hash_to_binary_representation (h : list byte) : string :=
  match h with
  | [] => EmptyString
  | c :: t => fmt_binary c ++ hash_to_binary_representation t
  end.

(** [DIFFICULTY_PREFIX] (main.rs:44). *)
Definition DIFFICULTY_PREFIX : string := "00".

(** The difficulty test written inline at main.rs:69-70 and main.rs:135-137. *)
Definition meets_difficulty (h : list byte) : bool :=
  starts_with (hash_to_binary_representation h) DIFFICULTY_PREFIX.

(** ** Gossip payloads and topics (p2p.rs:25-46) *)

Definition CHAIN_TOPIC : string := "chains".
Definition BLOCK_TOPIC : string := "blockchain".

(** A gossip payload, already classified by the decode order of p2p.rs:119-138
    (ChainResponse, then LocalChainRequest, then Block); its JSON text is left
    abstract. *)
Inductive Payload : Type :=
| PChainResponse (chain : list Block) (receiver : string)
| PLocalChainRequest (from_peer_id : string)
| PBlock (b : Block).

(** What a handler publishes: a (topic, payload) pair per [floodsub.publish]. *)
Definition Published : Type := (string * Payload)%type.

(** The genesis block of [App::genesis] (main.rs:101-113), at time [now]. *)
Definition genesis_block (now : Z) : Block :=
  {| block_id := 0; hash := "Genesis Hash"; prev_hash := "---";
     timestamp := now; data := "Genesis Block"; nonce := 2108 |}.

(** [App::genesis]: pushes the genesis block. *)
Definition genesis (now : Z) (app : App) : App := push app (genesis_block now).

(** The Init handler of [main] (main.rs:299-316): [peers] is
    [get_list_peers(&swarm)]; the request goes to the last peer listed. *)
Definition handle_init (now : Z) (peers : list string) (app : App)
  : App * list Published :=
  let app' := genesis now app in
  match last_opt peers with
  | None => (app', [])
  | Some p => (app', [(CHAIN_TOPIC, PLocalChainRequest p)])
  end.

Section Node.

(** [calculate_hash] (main.rs:79-91): SHA-256 of the serde_json text of the
    block's fields. The claims use it only as a function of
    (block_id, timestamp, prev_hash, data, nonce), so it is a parameter here:
    every theorem below holds for every such function, SHA-256 included. *)
Variable calculate_hash : N -> Z -> string -> string -> N -> list byte.

(** The loop of [mine_block] (main.rs:61-75), from [nonce] on. *)
Fixpoint mine_loop (fuel : nat) (block_id : N) (ts : Z) (prev : string)
    (dat : string) (nonce : N) : res (N * string) :=
  match fuel with
  | O => OutOfFuel
  | S f =>
      let h := calculate_hash block_id ts prev dat nonce in
      if starts_with (hash_to_binary_representation h) DIFFICULTY_PREFIX
      then Ok (nonce, hex_encode h)
      else n' <- u64_add nonce 1 ;; mine_loop f block_id ts prev dat n'
  end.

(** [mine_block] (main.rs:59-76): the search starts at nonce 0. *)
Definition mine_block (fuel : nat) (block_id : N) (ts : Z) (prev : string)
    (dat : string) : res (N * string) :=
  mine_loop fuel block_id ts prev dat 0.

(** [Block::new] (main.rs:198-209), [now] being [Utc::now().timestamp()]. *)
Definition Block_new (fuel : nat) (now : Z) (id : N) (prev : string)
    (dat : string) : res Block :=
  r <- mine_block fuel id now prev dat ;;
  let '(n, h) := r in
  Ok {| block_id := id; hash := h; timestamp := now; prev_hash := prev;
        data := dat; nonce := n |}.

(** [App::is_block_valid] (main.rs:131-154). *)
Definition is_block_valid (block prev_block : Block) : res bool :=
  if negb (String.eqb (prev_hash block) (hash prev_block)) then Ok false
  else
    decoded <- expect (hex_decode (hash block)) "Can't decode from Hex" ;;
    if negb (starts_with (hash_to_binary_representation decoded) DIFFICULTY_PREFIX)
    then Ok false
    else
      next <- u64_add (block_id prev_block) 1 ;;
      if negb (N.eqb (block_id block) next) then Ok false
      else if negb (String.eqb
                      (hex_encode (calculate_hash (block_id block) (timestamp block)
                                     (prev_hash block) (data block) (nonce block)))
                      (hash block))
      then Ok false
      else Ok true.

(** The [for i in 0..chain.len()] loop of [App::is_chain_valid]. *)
Fixpoint chain_loop (chain : list Block) (idx : list nat) : res bool :=
  match idx with
  | [] => Ok true
  | i :: rest =>
      if Nat.eqb i 0 then chain_loop chain rest
      else
        first <- expect (nth_error chain (i - 1)) "It has to exist" ;;
        second <- expect (nth_error chain i) "It has to exist" ;;
        v <- is_block_valid second first ;;
        if negb v then Ok false else chain_loop chain rest
  end.

(** [App::is_chain_valid] (main.rs:159-172). *)
Definition is_chain_valid (chain : list Block) : res bool :=
  chain_loop chain (seq 0 (List.length chain)).

(** [App::choose_chain] (main.rs:175-192). *)
Definition choose_chain (local remote : list Block) : res (list Block) :=
  is_local_valid <- is_chain_valid local ;;
  is_remote_valid <- is_chain_valid remote ;;
  if is_local_valid && is_remote_valid then
    if Nat.leb (List.length remote) (List.length local) then Ok local else Ok remote
  else if is_remote_valid && negb is_local_valid then Ok remote
  else if is_local_valid && negb is_remote_valid then Ok local
  else Panic "Local and remote chains are both invalid".

(** [App::try_add_block] (main.rs:116-124). *)
Definition try_add_block (app : App) (block : Block) : res App :=
  latest_block <- expect (last_opt (blockchain app))
                    "There is at least one block in the chain" ;;
  v <- is_block_valid block latest_block ;;
  if v then Ok (push app block) else Ok app.

(** [handle_create_block] (p2p.rs:170-190). *)
Definition handle_create_block (fuel : nat) (now : Z) (cmd : string) (app : App)
  : res (App * list Published) :=
  match strip_prefix cmd "create b" with
  | None => Ok (app, [])
  | Some dat =>
      latest_block <- expect (last_opt (blockchain app)) "there is at least one block" ;;
      id <- u64_add (block_id latest_block) 1 ;;
      block <- Block_new fuel now id (hash latest_block) dat ;;
      Ok (push app block, [(BLOCK_TOPIC, PBlock block)])
  end.

(** The [EventType::Input] arm of [main] (main.rs:323-328); listing peers or
    the chain only logs. *)
Definition handle_input (fuel : nat) (now : Z) (line : string) (app : App)
  : res (App * list Published) :=
  if String.eqb line "ls peers" then Ok (app, [])
  else if starts_with line "ls chain" then Ok (app, [])
  else if starts_with line "create block" then handle_create_block fuel now line app
  else Ok (app, []).

(** The FloodSub message handler (p2p.rs:117-143) of the node [me], for a
    message from [source]; the second component lists the [ChainResponse]s
    queued on [response_sender], as (chain, receiver). *)
Definition inject_floodsub (me source : string) (msg : Payload) (app : App)
  : res (App * list (list Block * string)) :=
  match msg with
  | PChainResponse chain receiver =>
      if String.eqb receiver me then
        c <- choose_chain (blockchain app) chain ;;
        Ok (mkApp c, [])
      else Ok (app, [])
  | PLocalChainRequest peer_id =>
      if String.eqb me peer_id then Ok (app, [(blockchain app, source)])
      else Ok (app, [])
  | PBlock b =>
      app' <- try_add_block app b ;;
      Ok (app', [])
  end.

(** The events of the loop in [main] (main.rs:280-331): a command line (with
    the mining fuel and the clock), a queued ChainResponse to publish, the Init
    signal (with the peers discovery lists), and a FloodSub message handled by
    the swarm's behaviour for the node [me]. *)
Inductive Event : Type :=
| EvInput (fuel : nat) (now : Z) (line : string)
| EvLocalChainResponse (chain : list Block) (receiver : string)
| EvInit (now : Z) (peers : list string)
| EvGossip (me source : string) (msg : Payload).

(** One iteration of the loop, on the application state. *)
Definition node_step (e : Event) (app : App) : res App :=
  match e with
  | EvInput fuel now line =>
      r <- handle_input fuel now line app ;; Ok (fst r)
  | EvLocalChainResponse _ _ => Ok app
  | EvInit now peers => Ok (fst (handle_init now peers app))
  | EvGossip me source msg =>
      r <- inject_floodsub me source msg app ;; Ok (fst r)
  end.

(** The loop over a sequence of events; a panic stops it. *)
Fixpoint run (es : list Event) (app : App) : res App :=
  match es with
  | [] => Ok app
  | e :: rest => app' <- node_step e app ;; run rest app'
  end.

Definition is_init (e : Event) : bool :=
  match e with EvInit _ _ => true | _ => false end.

End Node.

(** ** The difficulty predicate as the spec words it (§4.1)

    Each byte contributes the minimal-width base-2 representation of its value:
    bits [log2 n] down to 0 of [n], and "0" for the value 0. *)

Fixpoint bits_down (k : nat) (n : N) : string :=
  match k with
  | O => EmptyString
  | S k' => String (if N.testbit n (N.of_nat k') then "1"%char else "0"%char)
                   (bits_down k' n)
  end.

Definition min_width_binary (n : N) : string :=
  if (n =? 0)%N then "0" else bits_down (S (N.to_nat (N.log2 n))) n.

Definition spec_rendering (d : list byte) : string :=
  String.concat "" (map (fun b => min_width_binary (Byte.to_N b)) d).

Definition spec_meets_difficulty (d : list byte) : bool :=
  String.prefix "00" (spec_rendering d).

(** ** A concrete stand-in for [calculate_hash], for the worked instances

    Only nonce 3 gives a digest starting with two zero bytes. *)

Definition low_byte (n : N) : byte :=
  match Byte.of_N (n mod 256) with Some b => b | None => x00 end.

Definition demo_hash (id : N) (ts : Z) (prev dat : string) (n : N) : list byte :=
  if (n =? 3)%N then x00 :: x00 :: low_byte id :: repeat x07 29
  else x80 :: repeat x07 31.

(** A block mined under [demo_hash] at time 5 (nonce 3 is the one that works). *)
Definition demo_block (id : N) (prev dat : string) : Block :=
  {| block_id := id; hash := hex_encode (demo_hash id 5 prev dat 3);
     prev_hash := prev; timestamp := 5; data := dat; nonce := 3 |}.

Definition demo_b1 : Block := demo_block 1 "Genesis Hash" "a".
Definition demo_b2 : Block := demo_block 2 (hash demo_b1) "b".

(** Valid chains of length 2 and 3, and a chain whose second block names the
    wrong predecessor. *)
Definition demo_chain2 : list Block := [genesis_block 0; demo_b1].
Definition demo_chain3 : list Block := [genesis_block 0; demo_b1; demo_b2].
Definition demo_bad_block : Block := demo_block 1 "not the genesis hash" "a".
Definition demo_invalid_chain : list Block := [genesis_block 0; demo_bad_block].

(** A gossiped block whose hash is not hexadecimal. *)
Definition demo_non_hex_block : Block :=
  {| block_id := 1; hash := "zz"; prev_hash := "Genesis Hash";
     timestamp := 5; data := "a"; nonce := 3 |}.

(** The adjacent pair (chain[i-1], chain[i]) passes [is_block_valid]. *)
Definition pair_valid (calculate_hash : N -> Z -> string -> string -> N -> list byte)
    (chain : list Block) (i : nat) : Prop :=
  exists p b, nth_error chain (i - 1) = Some p /\ nth_error chain i = Some b /\
              is_block_valid calculate_hash b p = Ok true.

(** ** Peer discovery (p2p.rs:90-107)

    The FloodSub partial view is the set of target peers of the [floodsub]
    behaviour; [add_node_to_partial_view] inserts into it and
    [remove_node_from_partial_view] removes from it. It is kept here as a list
    without duplicates. [has_node] is [mdns.has_node], the discovery service's
    current view, and addresses are carried but unused, as in the source. *)

Inductive MdnsEvent : Type :=
| Discovered (l : list (string * string))
| Expired (l : list (string * string)).

Definition add_node_to_partial_view (peer : string) (view : list string) : list string :=
  if existsb (String.eqb peer) view then view else view ++ [peer].

Definition remove_node_from_partial_view (peer : string) (view : list string)
  : list string :=
  filter (fun q => negb (String.eqb q peer)) view.

(** [inject_event] for [MdnsEvent] (p2p.rs:91-106). *)
Definition inject_mdns (has_node : string -> bool) (ev : MdnsEvent) (view : list string)
  : list string :=
  match ev with
  | Discovered l =>
      fold_left (fun v '(peer, _) => add_node_to_partial_view peer v) l view
  | Expired l =>
      fold_left (fun v '(peer, _) =>
                   if negb (has_node peer) then remove_node_from_partial_view peer v
                   else v) l view
  end.

(** * Proofs *)

(** ** The per-byte rendering *)

Lemma append_empty_r (s : string) : s ++ "" = s.
Proof. induction s as [|c s IH]; simpl; [reflexivity|now rewrite IH]. Qed.

Lemma fmt_binary_min_width (b : byte) :
  fmt_binary b = min_width_binary (Byte.to_N b).
Proof. destruct b; vm_compute; reflexivity. Qed.

Lemma hash_to_binary_representation_spec (d : list byte) :
  hash_to_binary_representation d = spec_rendering d.
Proof.
  unfold spec_rendering. induction d as [|b d IH]; [reflexivity|].
  simpl. rewrite IH, fmt_binary_min_width.
  destruct d; simpl; [apply append_empty_r|reflexivity].
Qed.

Lemma prefix_empty (s : string) : String.prefix "" s = true.
Proof. destruct s; reflexivity. Qed.

Lemma fmt_binary_zero : fmt_binary x00 = "0".
Proof. reflexivity. Qed.

Lemma fmt_binary_nonzero (b : byte) :
  b <> x00 -> exists s, fmt_binary b = String "1" s.
Proof. destruct b; intro Hb; (contradiction || (eexists; reflexivity)). Qed.

(** The non-padded rendering starts with "00" exactly when the first two bytes
    are zero: a non-zero byte renders with a leading "1". *)
Lemma meets_difficulty_two_zero_bytes (d : list byte) :
  meets_difficulty d = true <-> exists rest, d = x00 :: x00 :: rest.
Proof.
  unfold meets_difficulty, starts_with, DIFFICULTY_PREFIX.
  split.
  - destruct d as [|b0 d]; simpl; [discriminate|].
    destruct (byte_eq_dec b0 x00) as [->|H0].
    + rewrite fmt_binary_zero. simpl.
      destruct d as [|b1 d]; simpl; [discriminate|].
      destruct (byte_eq_dec b1 x00) as [->|H1]; [now exists d|].
      destruct (fmt_binary_nonzero b1 H1) as [s ->]. simpl. discriminate.
    + destruct (fmt_binary_nonzero b0 H0) as [s ->]. simpl. discriminate.
  - intros [rest ->]. cbn [hash_to_binary_representation]. rewrite fmt_binary_zero.
    simpl. apply prefix_empty.
Qed.

Example meets_difficulty_example_yes :
  meets_difficulty (x00 :: x00 :: xff :: repeat x01 29) = true.
Proof. reflexivity. Qed.

(** A byte of value 1 renders as "1", not "00000001": a digest whose first
    byte is 1 fails although its fixed-width rendering starts with "0000000". *)
Example meets_difficulty_example_no :
  meets_difficulty (x01 :: repeat x00 31) = false.
Proof. reflexivity. Qed.

(** The spec's own rendering agrees with [hash_to_binary_representation] on
    every digest. *)
Lemma meets_difficulty_eq_spec (d : list byte) :
  meets_difficulty d = spec_meets_difficulty d.
Proof.
  unfold meets_difficulty, spec_meets_difficulty, starts_with, DIFFICULTY_PREFIX.
  now rewrite hash_to_binary_representation_spec.
Qed.

(** C7: for every digest [d] (in particular every 32-byte one), the difficulty
    test of the code holds iff the concatenation of the minimal-width base-2
    representations of its bytes starts with "00". *)
Theorem C7_meets_difficulty_iff_min_width_prefix (d : list byte) :
  meets_difficulty d = true <-> String.prefix "00" (spec_rendering d) = true.
Proof.
  rewrite meets_difficulty_eq_spec. reflexivity.
Qed.

(** ** Least witnesses over N *)

Lemma least_true (f : N -> bool) (n : N) :
  f n = true ->
  exists m, (m <= n)%N /\ f m = true /\ forall k, (k < m)%N -> f k = false.
Proof.
  intro Hn.
  assert (Hq : forall b, (forall k, (k < b)%N -> f k = false) \/
                 exists m, (m < b)%N /\ f m = true /\ forall k, (k < m)%N -> f k = false).
  { induction b as [|b IH] using N.peano_ind.
    - left. intros k Hk. lia.
    - destruct IH as [Hall|[m [Hm [Hfm Hlt]]]].
      + destruct (f b) eqn:Hfb.
        * right. exists b. repeat split; [lia|exact Hfb|exact Hall].
        * left. intros k Hk.
          destruct (N.eq_dec k b) as [->|Hne]; [exact Hfb|apply Hall; lia].
      + right. exists m. repeat split; [lia|exact Hfm|exact Hlt]. }
  destruct (Hq (N.succ n)) as [Hall|[m [Hm [Hfm Hlt]]]].
  - rewrite (Hall n) in Hn by lia. discriminate.
  - exists m. repeat split; [lia|exact Hfm|exact Hlt].
Qed.

(** ** The mining loop *)

Section Mining.

Variable calculate_hash : N -> Z -> string -> string -> N -> list byte.
Variables (id : N) (ts : Z) (prev dat : string).

Let hsh (k : N) := calculate_hash id ts prev dat k.

Lemma mine_loop_step (f : nat) (k : N) :
  mine_loop calculate_hash (S f) id ts prev dat k =
  if meets_difficulty (hsh k) then Ok (k, hex_encode (hsh k))
  else n' <- u64_add k 1 ;; mine_loop calculate_hash f id ts prev dat n'.
Proof. reflexivity. Qed.

(** Suppose [m] is the least nonce meeting the difficulty, with [m] a u64. *)
Variable m : N.
Hypothesis Hm64 : (m < 2 ^ 64)%N.
Hypothesis Hmeets : meets_difficulty (hsh m) = true.
Hypothesis Hleast : forall k, (k < m)%N -> meets_difficulty (hsh k) = false.

Lemma u64_add_below (k : N) : (k < m)%N -> u64_add k 1 = Ok (k + 1)%N.
Proof.
  intro Hk. unfold u64_add.
  destruct (N.ltb_spec (k + 1) (2 ^ 64)); [reflexivity|lia].
Qed.

Lemma mine_loop_reaches (fuel : nat) (k : N) :
  (k <= m)%N -> (m - k < N.of_nat fuel)%N ->
  mine_loop calculate_hash fuel id ts prev dat k = Ok (m, hex_encode (hsh m)).
Proof.
  revert k. induction fuel as [|f IH]; intros k Hk Hf; [lia|].
  rewrite mine_loop_step.
  destruct (N.eq_dec k m) as [->|Hne]; [now rewrite Hmeets|].
  rewrite Hleast by lia. rewrite u64_add_below by lia. simpl.
  apply IH; lia.
Qed.

Lemma mine_loop_only (fuel : nat) (k : N) :
  (k <= m)%N ->
  mine_loop calculate_hash fuel id ts prev dat k = OutOfFuel \/
  mine_loop calculate_hash fuel id ts prev dat k = Ok (m, hex_encode (hsh m)).
Proof.
  revert k. induction fuel as [|f IH]; intros k Hk; [now left|].
  rewrite mine_loop_step.
  destruct (N.eq_dec k m) as [->|Hne]; [right; now rewrite Hmeets|].
  rewrite Hleast by lia. rewrite u64_add_below by lia. simpl.
  apply IH; lia.
Qed.

End Mining.

(** C8: when some u64 nonce [n] makes the hash meet the difficulty, [mine_block]
    (started at nonce 0, incrementing by 1) terminates, with enough fuel, on the
    least such nonce [m] and its hex-encoded hash; every run that returns at all
    returns that same pair. *)
Theorem C8_mine_block_least_nonce
    (calculate_hash : N -> Z -> string -> string -> N -> list byte)
    (id : N) (ts : Z) (prev dat : string) (n : N) :
  (n < 2 ^ 64)%N ->
  meets_difficulty (calculate_hash id ts prev dat n) = true ->
  exists m, (m <= n)%N /\
    meets_difficulty (calculate_hash id ts prev dat m) = true /\
    (forall k, (k < m)%N -> meets_difficulty (calculate_hash id ts prev dat k) = false) /\
    (exists fuel, mine_block calculate_hash fuel id ts prev dat =
                  Ok (m, hex_encode (calculate_hash id ts prev dat m))) /\
    (forall fuel r, mine_block calculate_hash fuel id ts prev dat = Ok r ->
                    r = (m, hex_encode (calculate_hash id ts prev dat m))).
Proof.
  intros Hn Hmeets.
  destruct (least_true (fun k => meets_difficulty (calculate_hash id ts prev dat k)) n Hmeets)
    as [m [Hmn [Hm Hlt]]].
  exists m. repeat split; try assumption.
  - exists (S (N.to_nat m)). unfold mine_block.
    apply mine_loop_reaches; try assumption; lia.
  - intros fuel r Hr. unfold mine_block in Hr.
    destruct (mine_loop_only calculate_hash id ts prev dat m ltac:(lia) Hm Hlt fuel 0 ltac:(lia))
      as [E|E]; rewrite E in Hr; [discriminate|congruence].
Qed.

(** ** Block and chain validation *)

Section Validation.

Variable calculate_hash : N -> Z -> string -> string -> N -> list byte.

Lemma u64_add_ok (a b : N) : (a + b < 2 ^ 64)%N -> u64_add a b = Ok (a + b)%N.
Proof.
  intro H. unfold u64_add. destruct (N.ltb_spec (a + b) (2 ^ 64)); [reflexivity|lia].
Qed.

Lemma is_block_valid_ok_true (b p : Block) :
  (block_id b < 2 ^ 64)%N ->
  is_block_valid calculate_hash b p = Ok true <->
  prev_hash b = hash p /\
  (exists d, hex_decode (hash b) = Some d /\ meets_difficulty d = true) /\
  block_id b = (block_id p + 1)%N /\
  hex_encode (calculate_hash (block_id b) (timestamp b) (prev_hash b) (data b) (nonce b))
    = hash b.
Proof.
  intro Hb. unfold is_block_valid.
  destruct (String.eqb_spec (prev_hash b) (hash p)) as [E1|E1]; simpl;
    [|split; [discriminate|intros [? _]; contradiction]].
  destruct (hex_decode (hash b)) as [d|] eqn:Ed; simpl;
    [|split; [discriminate|intros [_ [[d [? _]] _]]; discriminate]].
  change (starts_with (hash_to_binary_representation d) DIFFICULTY_PREFIX)
    with (meets_difficulty d).
  destruct (meets_difficulty d) eqn:Em; simpl;
    [|split; [discriminate|intros [_ [[d' [Hd' Hm]] _]]; congruence]].
  unfold u64_add.
  destruct (N.ltb_spec (block_id p + 1) (2 ^ 64)) as [Hov|Hov]; simpl.
  - destruct (N.eqb_spec (block_id b) (block_id p + 1)) as [E3|E3]; simpl;
      [|split; [discriminate|intros [_ [_ [? _]]]; contradiction]].
    destruct (String.eqb_spec
      (hex_encode (calculate_hash (block_id b) (timestamp b) (prev_hash b) (data b) (nonce b)))
      (hash b)) as [E4|E4]; simpl.
    + split; [intros _|reflexivity]. repeat split; try assumption. now exists d.
    + split; [discriminate|intros [_ [_ [_ ?]]]; contradiction].
  - split; [discriminate|intros [_ [_ [E3 _]]]; lia].
Qed.

(** C5: [is_block_valid] checks, in this order, (1) the predecessor hash,
    (2) the difficulty of the hex-decoded hash, (3) the consecutive id and
    (4) the recomputed hash; the first failing rule makes it return false
    whatever the later fields are, and it returns true iff all four hold
    (for u64 ids, the predecessor's id below u64::MAX so that [prev.id + 1]
    does not overflow). *)
Theorem C5_is_block_valid_four_rules (b p : Block) :
  (block_id b < 2 ^ 64)%N -> (block_id p + 1 < 2 ^ 64)%N ->
  (prev_hash b <> hash p -> is_block_valid calculate_hash b p = Ok false) /\
  (prev_hash b = hash p -> forall d, hex_decode (hash b) = Some d ->
     meets_difficulty d = false -> is_block_valid calculate_hash b p = Ok false) /\
  (prev_hash b = hash p -> forall d, hex_decode (hash b) = Some d ->
     meets_difficulty d = true -> block_id b <> (block_id p + 1)%N ->
     is_block_valid calculate_hash b p = Ok false) /\
  (prev_hash b = hash p -> forall d, hex_decode (hash b) = Some d ->
     meets_difficulty d = true -> block_id b = (block_id p + 1)%N ->
     hex_encode (calculate_hash (block_id b) (timestamp b) (prev_hash b) (data b) (nonce b))
       <> hash b ->
     is_block_valid calculate_hash b p = Ok false) /\
  (is_block_valid calculate_hash b p = Ok true <->
   prev_hash b = hash p /\
   (exists d, hex_decode (hash b) = Some d /\ meets_difficulty d = true) /\
   block_id b = (block_id p + 1)%N /\
   hex_encode (calculate_hash (block_id b) (timestamp b) (prev_hash b) (data b) (nonce b))
     = hash b).
Proof.
  intros Hb Hp.
  split; [|split; [|split; [|split]]].
  - intro E1. unfold is_block_valid.
    destruct (String.eqb_spec (prev_hash b) (hash p)); [contradiction|reflexivity].
  - intros E1 d Ed Em. unfold is_block_valid. rewrite E1, String.eqb_refl. simpl. rewrite Ed. simpl.
    change (starts_with (hash_to_binary_representation d) DIFFICULTY_PREFIX)
      with (meets_difficulty d). now rewrite Em.
  - intros E1 d Ed Em E3. unfold is_block_valid. rewrite E1, String.eqb_refl. simpl. rewrite Ed. simpl.
    change (starts_with (hash_to_binary_representation d) DIFFICULTY_PREFIX)
      with (meets_difficulty d). rewrite Em. simpl.
    rewrite u64_add_ok by exact Hp. simpl.
    destruct (N.eqb_spec (block_id b) (block_id p + 1)); [contradiction|reflexivity].
  - intros E1 d Ed Em E3 E4. unfold is_block_valid. rewrite E1, String.eqb_refl. simpl. rewrite Ed. simpl.
    change (starts_with (hash_to_binary_representation d) DIFFICULTY_PREFIX)
      with (meets_difficulty d). rewrite Em. simpl.
    rewrite u64_add_ok by lia. simpl. rewrite <- E3, N.eqb_refl. simpl.
    rewrite <- E1.
    destruct (String.eqb_spec
      (hex_encode (calculate_hash (block_id b) (timestamp b) (prev_hash b) (data b) (nonce b)))
      (hash b)); [contradiction|reflexivity].
  - apply is_block_valid_ok_true; assumption.
Qed.

Lemma chain_loop_pair (c : list Block) (s : nat) (rest : list nat) (p b : Block) :
  s <> 0 -> nth_error c (s - 1) = Some p -> nth_error c s = Some b ->
  chain_loop calculate_hash c (s :: rest) =
  (v <- is_block_valid calculate_hash b p ;;
   if negb v then Ok false else chain_loop calculate_hash c rest).
Proof.
  intros Hs Hp Hb. simpl. rewrite (proj2 (Nat.eqb_neq s 0) Hs), Hp, Hb. reflexivity.
Qed.

Lemma nth_error_in_range (c : list Block) (i : nat) :
  i < List.length c -> exists x, nth_error c i = Some x.
Proof.
  intro H. destruct (nth_error c i) as [x|] eqn:E; [now exists x|].
  apply nth_error_None in E. lia.
Qed.

Lemma chain_loop_ok_true (c : list Block) (k s : nat) :
  1 <= s -> s + k <= List.length c ->
  chain_loop calculate_hash c (seq s k) = Ok true <->
  forall i, s <= i < s + k -> pair_valid calculate_hash c i.
Proof.
  revert s. induction k as [|k IH]; intros s Hs Hk.
  - simpl. split; [intros _ i Hi; lia|reflexivity].
  - destruct (nth_error_in_range c (s - 1) ltac:(lia)) as [p Hp].
    destruct (nth_error_in_range c s ltac:(lia)) as [b Hb].
    cbn [seq]. rewrite (chain_loop_pair c s _ p b ltac:(lia) Hp Hb).
    destruct (is_block_valid calculate_hash b p) as [[|]| |] eqn:Ev; simpl.
    + rewrite (IH (S s) ltac:(lia) ltac:(lia)). split.
      * intros Hall i Hi. destruct (Nat.eq_dec i s) as [->|Hne].
        -- now exists p, b.
        -- apply Hall. lia.
      * intros Hall i Hi. apply Hall. lia.
    + split; [discriminate|]. intro Hall.
      destruct (Hall s ltac:(lia)) as [p' [b' [Hp' [Hb' Hv]]]].
      congruence.
    + split; [discriminate|]. intro Hall.
      destruct (Hall s ltac:(lia)) as [p' [b' [Hp' [Hb' Hv]]]].
      congruence.
    + split; [discriminate|]. intro Hall.
      destruct (Hall s ltac:(lia)) as [p' [b' [Hp' [Hb' Hv]]]].
      congruence.
Qed.

Lemma chain_loop_first_false (c : list Block) (k s : nat) :
  1 <= s -> s + k <= List.length c ->
  forall i p b, s <= i < s + k ->
  nth_error c (i - 1) = Some p -> nth_error c i = Some b ->
  (forall j, s <= j < i -> pair_valid calculate_hash c j) ->
  is_block_valid calculate_hash b p = Ok false ->
  chain_loop calculate_hash c (seq s k) = Ok false.
Proof.
  revert s. induction k as [|k IH]; intros s Hs Hk i p b Hi Hp Hb Hbefore Hv; [lia|].
  destruct (nth_error_in_range c (s - 1) ltac:(lia)) as [p0 Hp0].
  destruct (nth_error_in_range c s ltac:(lia)) as [b0 Hb0].
  cbn [seq]. rewrite (chain_loop_pair c s _ p0 b0 ltac:(lia) Hp0 Hb0).
  destruct (Nat.eq_dec i s) as [->|Hne].
  - rewrite Hp0 in Hp. rewrite Hb0 in Hb. injection Hp as <-. injection Hb as <-.
    rewrite Hv. reflexivity.
  - destruct (Hbefore s ltac:(lia)) as [p' [b' [Hp' [Hb' Hv']]]].
    rewrite Hp0 in Hp'. rewrite Hb0 in Hb'. injection Hp' as <-. injection Hb' as <-.
    rewrite Hv'. simpl.
    apply (IH (S s) ltac:(lia) ltac:(lia) i p b); try assumption; try lia.
    intros j Hj. apply Hbefore. lia.
Qed.

(** C6: [is_chain_valid] returns true iff every adjacent pair
    (chain[i-1], chain[i]) with 1 <= i < len passes [is_block_valid] (index 0
    is never checked as a block); it returns false at the first pair that
    fails; and it returns true on chains of List.length 0 or 1. *)
Theorem C6_is_chain_valid_adjacent_pairs (chain : list Block) :
  (is_chain_valid calculate_hash chain = Ok true <->
   forall i, 1 <= i < List.length chain -> pair_valid calculate_hash chain i) /\
  (forall i p b, 1 <= i -> nth_error chain (i - 1) = Some p -> nth_error chain i = Some b ->
   (forall j, 1 <= j < i -> pair_valid calculate_hash chain j) ->
   is_block_valid calculate_hash b p = Ok false ->
   is_chain_valid calculate_hash chain = Ok false) /\
  (List.length chain <= 1 -> is_chain_valid calculate_hash chain = Ok true).
Proof.
  unfold is_chain_valid.
  destruct (List.length chain) as [|n] eqn:Hlen.
  - simpl. split; [split; [intros _ i Hi; lia|reflexivity]|].
    split; [|reflexivity]. intros i p b Hi Hp Hb.
    assert (i < List.length chain) by (apply nth_error_Some; congruence). lia.
  - cbn [seq chain_loop Nat.eqb].
    split; [|split].
    + rewrite (chain_loop_ok_true chain n 1 ltac:(lia) ltac:(lia)).
      split; intros H i Hi; apply H; lia.
    + intros i p b Hi Hp Hb Hbefore Hv.
      assert (i < List.length chain) by (apply nth_error_Some; congruence).
      apply (chain_loop_first_false chain n 1 ltac:(lia) ltac:(lia) i p b);
        try assumption; lia.
    + intro Hl. destruct n; [reflexivity|lia].
Qed.

End Validation.

(** ** Fork choice and the coordinator's handlers *)

Section Coordinator.

Variable calculate_hash : N -> Z -> string -> string -> N -> list byte.

(** C4: with at least one chain valid, [choose_chain] returns the longer chain
    when both are valid, the local one on equal lengths, and the valid one
    (whatever the lengths) when exactly one is valid. *)
Theorem C4_choose_chain_valid_cases (local remote : list Block) :
  (is_chain_valid calculate_hash local = Ok true ->
   is_chain_valid calculate_hash remote = Ok true ->
   List.length local < List.length remote ->
   choose_chain calculate_hash local remote = Ok remote) /\
  (is_chain_valid calculate_hash local = Ok true ->
   is_chain_valid calculate_hash remote = Ok true ->
   List.length remote < List.length local ->
   choose_chain calculate_hash local remote = Ok local) /\
  (is_chain_valid calculate_hash local = Ok true ->
   is_chain_valid calculate_hash remote = Ok true ->
   List.length local = List.length remote ->
   choose_chain calculate_hash local remote = Ok local) /\
  (is_chain_valid calculate_hash local = Ok true ->
   is_chain_valid calculate_hash remote = Ok false ->
   choose_chain calculate_hash local remote = Ok local) /\
  (is_chain_valid calculate_hash local = Ok false ->
   is_chain_valid calculate_hash remote = Ok true ->
   choose_chain calculate_hash local remote = Ok remote).
Proof.
  unfold choose_chain.
  split; [|split; [|split; [|split]]]; intros Hl Hr; rewrite Hl, Hr; simpl;
    try reflexivity; intro Hlen.
  - destruct (Nat.leb_spec (List.length remote) (List.length local)); [lia|reflexivity].
  - destruct (Nat.leb_spec (List.length remote) (List.length local)); [reflexivity|lia].
  - destruct (Nat.leb_spec (List.length remote) (List.length local)); [reflexivity|lia].
Qed.

(** C1, as the code has it: when both chains are invalid, [choose_chain]
    panics ([panic!], main.rs:190) instead of returning an error value, and the
    ChainResponse handler that calls it panics with it, so no chain is ever
    assigned and the node process stops. *)
Theorem C1_choose_chain_both_invalid_panics (local remote : list Block) :
  is_chain_valid calculate_hash local = Ok false ->
  is_chain_valid calculate_hash remote = Ok false ->
  choose_chain calculate_hash local remote = Panic "Local and remote chains are both invalid" /\
  forall me source,
    inject_floodsub calculate_hash me source (PChainResponse remote me) (mkApp local) =
    Panic "Local and remote chains are both invalid".
Proof.
  intros Hl Hr.
  assert (Hc : choose_chain calculate_hash local remote =
               Panic "Local and remote chains are both invalid").
  { unfold choose_chain. rewrite Hl, Hr. reflexivity. }
  split; [exact Hc|].
  intros me source. simpl. rewrite String.eqb_refl, Hc. reflexivity.
Qed.

(** C9: a block whose [prev_hash] matches the predecessor's hash but whose
    [hash] is not valid hexadecimal makes [is_block_valid] panic in
    [hex::decode(..).expect] rather than return false; received as a gossiped
    Block it makes the FloodSub handler panic, on any node whose chain ends
    with that predecessor. *)
Theorem C9_non_hex_hash_panics (b p : Block) :
  prev_hash b = hash p -> hex_decode (hash b) = None ->
  is_block_valid calculate_hash b p = Panic "Can't decode from Hex" /\
  forall app me source, last_opt (blockchain app) = Some p ->
    inject_floodsub calculate_hash me source (PBlock b) app = Panic "Can't decode from Hex".
Proof.
  intros E1 Ed.
  assert (Hv : is_block_valid calculate_hash b p = Panic "Can't decode from Hex").
  { unfold is_block_valid. rewrite E1, String.eqb_refl. simpl. rewrite Ed. reflexivity. }
  split; [exact Hv|].
  intros app me source Hlast. simpl. unfold try_add_block. rewrite Hlast. simpl.
  rewrite Hv. reflexivity.
Qed.

(** C10: on the empty chain (before Init has pushed the genesis block), both a
    gossiped block and a "create block" command panic on [last().expect];
    on a non-empty chain, a block that [is_block_valid] rejects leaves the
    chain unchanged. *)
Theorem C10_empty_chain_panics_invalid_block_kept (fuel : nat) (now : Z) :
  (forall b, try_add_block calculate_hash (mkApp []) b =
             Panic "There is at least one block in the chain") /\
  (forall me source b, inject_floodsub calculate_hash me source (PBlock b) (mkApp []) =
             Panic "There is at least one block in the chain") /\
  (forall rest, handle_input calculate_hash fuel now ("create block" ++ rest) (mkApp []) =
             Panic "there is at least one block") /\
  (forall app b p, last_opt (blockchain app) = Some p ->
     is_block_valid calculate_hash b p = Ok false ->
     try_add_block calculate_hash app b = Ok app).
Proof.
  split; [|split; [|split]].
  - intro b. reflexivity.
  - intros me source b. reflexivity.
  - intro rest. unfold handle_input, starts_with. simpl.
    rewrite prefix_empty. reflexivity.
  - intros app b p Hlast Hv. unfold try_add_block. rewrite Hlast. simpl.
    rewrite Hv. reflexivity.
Qed.

(** C2, as the code has it: a line "create block <d>" strips only the prefix
    "create b" (p2p.rs:171), so the mined block carries the data "lock <d>";
    its id is the last id plus 1, its [prev_hash] the last hash, and it is
    appended to the chain and published on the "blockchain" topic. *)
Theorem C2_create_block_data_keeps_lock (fuel : nat) (now : Z) (d : string)
    (app app' : App) (out : list Published) :
  handle_input calculate_hash fuel now ("create block " ++ d) app = Ok (app', out) ->
  exists latest b,
    last_opt (blockchain app) = Some latest /\
    blockchain app' = (blockchain app ++ [b])%list /\
    out = [(BLOCK_TOPIC, PBlock b)] /\
    block_id b = (block_id latest + 1)%N /\
    prev_hash b = hash latest /\
    data b = "lock " ++ d.
Proof.
  unfold handle_input. simpl. unfold handle_create_block. simpl.
  destruct (last_opt (blockchain app)) as [latest|] eqn:El; simpl; [|discriminate].
  unfold u64_add.
  destruct (N.ltb_spec (block_id latest + 1) (2 ^ 64)); simpl; [|discriminate].
  unfold Block_new.
  match goal with
  | |- context [mine_block ?h ?f ?i ?t ?p ?x] =>
      destruct (mine_block h f i t p x) as [[n h']| |]; simpl; try discriminate
  end.
  intro Hr. injection Hr as <- <-.
  eexists latest, _. repeat split; reflexivity.
Qed.

End Coordinator.

(** C3, as the code has it: the Init handler pushes the genesis block whatever
    the chain holds (there is no emptiness test in main.rs:299-316 or in
    [App::genesis]); on the empty chain of process start the chain afterwards is
    exactly the genesis block, with id 0 at index 0. *)
Theorem C3_init_appends_genesis (now : Z) (peers : list string) (app : App) :
  blockchain (fst (handle_init now peers app)) = (blockchain app ++ [genesis_block now])%list /\
  (blockchain app = [] ->
   blockchain (fst (handle_init now peers app)) = [genesis_block now] /\
   option_map block_id (nth_error (blockchain (fst (handle_init now peers app))) 0) = Some 0%N).
Proof.
  assert (Hc : blockchain (fst (handle_init now peers app)) =
               (blockchain app ++ [genesis_block now])%list).
  { unfold handle_init. destruct (last_opt peers); reflexivity. }
  split; [exact Hc|].
  intro He. rewrite Hc, He. split; reflexivity.
Qed.

(** * Worked instances *)

(** C5 at the second block of [demo_chain2]: all four rules hold. *)
Lemma C5_witness :
  (block_id demo_b1 < 2 ^ 64)%N /\ (block_id (genesis_block 0) + 1 < 2 ^ 64)%N /\
  is_block_valid demo_hash demo_b1 (genesis_block 0) = Ok true.
Proof.
  assert (H1 : (block_id demo_b1 < 2 ^ 64)%N) by (vm_compute; reflexivity).
  assert (H2 : (block_id (genesis_block 0) + 1 < 2 ^ 64)%N) by (vm_compute; reflexivity).
  split; [exact H1|split; [exact H2|]].
  apply (proj2 (proj2 (proj2 (proj2
    (C5_is_block_valid_four_rules demo_hash demo_b1 (genesis_block 0) H1 H2))))).
  split; [reflexivity|].
  split; [exists (demo_hash 1 5 "Genesis Hash" "a" 3); split; vm_compute; reflexivity|].
  split; vm_compute; reflexivity.
Defined.

(** C6 on [demo_chain3]: the chain is valid, so its pair at index 2 passes. *)
Lemma C6_witness :
  is_chain_valid demo_hash demo_chain3 = Ok true /\ pair_valid demo_hash demo_chain3 2.
Proof.
  assert (Hv : is_chain_valid demo_hash demo_chain3 = Ok true) by (vm_compute; reflexivity).
  split; [exact Hv|].
  apply (proj1 (proj1 (C6_is_chain_valid_adjacent_pairs demo_hash demo_chain3)) Hv).
  simpl. lia.
Defined.

(** C8 on the inputs of [demo_b1]: nonce 3 meets the difficulty. *)
Lemma C8_witness :
  (3 < 2 ^ 64)%N /\ meets_difficulty (demo_hash 1 5 "Genesis Hash" "a" 3) = true /\
  exists m fuel, (m <= 3)%N /\
    mine_block demo_hash fuel 1 5 "Genesis Hash" "a" =
    Ok (m, hex_encode (demo_hash 1 5 "Genesis Hash" "a" m)).
Proof.
  assert (H1 : (3 < 2 ^ 64)%N) by (vm_compute; reflexivity).
  assert (H2 : meets_difficulty (demo_hash 1 5 "Genesis Hash" "a" 3) = true) by reflexivity.
  split; [exact H1|split; [exact H2|]].
  destruct (C8_mine_block_least_nonce demo_hash 1 5 "Genesis Hash" "a" 3 H1 H2)
    as [m [Hm [_ [_ [[fuel Hf] _]]]]].
  exists m, fuel. split; assumption.
Defined.

(** C4: of the valid chains of lengths 2 and 3 the longer wins, from either side. *)
Lemma C4_witness :
  is_chain_valid demo_hash demo_chain2 = Ok true /\
  is_chain_valid demo_hash demo_chain3 = Ok true /\
  choose_chain demo_hash demo_chain2 demo_chain3 = Ok demo_chain3 /\
  choose_chain demo_hash demo_chain3 demo_chain2 = Ok demo_chain3.
Proof.
  assert (H2 : is_chain_valid demo_hash demo_chain2 = Ok true) by (vm_compute; reflexivity).
  assert (H3 : is_chain_valid demo_hash demo_chain3 = Ok true) by (vm_compute; reflexivity).
  split; [exact H2|split; [exact H3|split]].
  - apply (proj1 (C4_choose_chain_valid_cases demo_hash demo_chain2 demo_chain3)
             H2 H3). simpl. lia.
  - apply (proj1 (proj2 (C4_choose_chain_valid_cases demo_hash demo_chain3 demo_chain2))
             H3 H2). simpl. lia.
Defined.

(** C1 (as the code has it) on two copies of [demo_invalid_chain]. *)
Lemma C1_witness :
  is_chain_valid demo_hash demo_invalid_chain = Ok false /\
  inject_floodsub demo_hash "me" "peer" (PChainResponse demo_invalid_chain "me")
    (mkApp demo_invalid_chain) = Panic "Local and remote chains are both invalid".
Proof.
  assert (H : is_chain_valid demo_hash demo_invalid_chain = Ok false)
    by (vm_compute; reflexivity).
  split; [exact H|].
  exact (proj2 (C1_choose_chain_both_invalid_panics demo_hash _ _ H H) "me" "peer").
Defined.

(** C1 as stated fails: two invalid chains, which the predecessor test alone
    rejects (no hash is computed), make the selector panic instead of returning
    a recoverable error. *)
Lemma C1_counterexample :
  is_chain_valid demo_hash demo_invalid_chain = Ok false /\
  choose_chain demo_hash demo_invalid_chain demo_invalid_chain =
    Panic "Local and remote chains are both invalid" /\
  inject_floodsub demo_hash "me" "peer" (PChainResponse demo_invalid_chain "me")
    (mkApp demo_invalid_chain) = Panic "Local and remote chains are both invalid".
Proof. vm_compute. repeat split. Qed.

(** C9 on [demo_non_hex_block] received by a node holding only the genesis block. *)
Lemma C9_witness :
  prev_hash demo_non_hex_block = hash (genesis_block 0) /\
  hex_decode (hash demo_non_hex_block) = None /\
  inject_floodsub demo_hash "me" "peer" (PBlock demo_non_hex_block)
    (mkApp [genesis_block 0]) = Panic "Can't decode from Hex".
Proof.
  assert (H1 : prev_hash demo_non_hex_block = hash (genesis_block 0)) by reflexivity.
  assert (H2 : hex_decode (hash demo_non_hex_block) = None) by reflexivity.
  split; [exact H1|split; [exact H2|]].
  exact (proj2 (C9_non_hex_hash_panics demo_hash _ _ H1 H2) (mkApp [genesis_block 0]) "me" "peer" eq_refl).
Defined.

(** C10: [demo_bad_block] is rejected on [demo_chain2] and leaves it as it was. *)
Lemma C10_witness :
  is_block_valid demo_hash demo_bad_block demo_b1 = Ok false /\
  try_add_block demo_hash (mkApp demo_chain2) demo_bad_block = Ok (mkApp demo_chain2).
Proof.
  assert (H : is_block_valid demo_hash demo_bad_block demo_b1 = Ok false)
    by (vm_compute; reflexivity).
  split; [exact H|].
  exact (proj2 (proj2 (proj2 (C10_empty_chain_panics_invalid_block_kept demo_hash 1 5)))
           (mkApp demo_chain2) demo_bad_block demo_b1 eq_refl H).
Defined.

(** C2 at the line "create block hello" on the genesis-only chain: the mined
    block's data is "lock hello". *)
Lemma C2_witness :
  exists app' out,
    handle_input demo_hash 10 5 ("create block " ++ "hello") (mkApp [genesis_block 0]) =
      Ok (app', out) /\
    exists latest b,
      last_opt (blockchain (mkApp [genesis_block 0])) = Some latest /\
      blockchain app' = (blockchain (mkApp [genesis_block 0]) ++ [b])%list /\
      out = [(BLOCK_TOPIC, PBlock b)] /\
      block_id b = (block_id latest + 1)%N /\
      prev_hash b = hash latest /\
      data b = "lock " ++ "hello".
Proof.
  destruct (handle_input demo_hash 10 5 ("create block " ++ "hello") (mkApp [genesis_block 0]))
    as [[a o]| |] eqn:E; [|vm_compute in E; discriminate..].
  exists a, o. split; [reflexivity|].
  exact (C2_create_block_data_keeps_lock demo_hash 10 5 "hello" _ a o E).
Defined.

(** C3 at process start: after Init on the empty chain, the chain is the
    genesis block alone. *)
Lemma C3_witness :
  blockchain (fst (handle_init 7 ["peer"] (mkApp []))) = [genesis_block 7].
Proof. exact (proj1 (proj2 (C3_init_appends_genesis 7 ["peer"] (mkApp [])) eq_refl)). Defined.

(** C3 as stated fails: Init on a chain that already holds a block pushes a
    second genesis block. *)
Lemma C3_counterexample :
  blockchain (fst (handle_init 1 [] (mkApp [genesis_block 0]))) =
  [genesis_block 0; genesis_block 1].
Proof. reflexivity. Qed.

(** * Further properties of the code *)

(** ** Hex encoding *)

Lemma hex_byte_roundtrip (b : byte) :
  hex_val (hex_digit (Byte.to_N b / 16)) = Some (Byte.to_N b / 16)%N /\
  hex_val (hex_digit (Byte.to_N b mod 16)) = Some (Byte.to_N b mod 16)%N /\
  Byte.of_N (Byte.to_N b / 16 * 16 + Byte.to_N b mod 16) = Some b.
Proof. destruct b; vm_compute; repeat split. Qed.

(** [hex::decode] inverts [hex::encode], and rejects every string of odd
    length. *)
Theorem hex_decode_encode (bs : list byte) :
  hex_decode (hex_encode bs) = Some bs /\
  forall s, Nat.odd (String.length s) = true -> hex_decode s = None.
Proof.
  split.
  - induction bs as [|b t IH]; [reflexivity|].
    destruct (hex_byte_roundtrip b) as [Hh [Hl Hb]].
    simpl. rewrite Hh, Hl, IH, Hb. reflexivity.
  - assert (Hgen : forall n s, String.length s <= n -> Nat.odd (String.length s) = true ->
                               hex_decode s = None).
    { induction n as [|n IH]; intros s Hlen Hodd.
      - destruct s; [discriminate|simpl in Hlen; lia].
      - destruct s as [|c [|c' t]]; [discriminate|reflexivity|].
        simpl. simpl in Hlen, Hodd.
        rewrite Nat.odd_succ, Nat.even_succ in Hodd.
        rewrite (IH t ltac:(lia) Hodd).
        destruct (hex_val c), (hex_val c'); reflexivity. }
    intros s. apply (Hgen (String.length s) s (le_n _)).
Qed.

(** ** Mined blocks *)

Section Mined.

Variable calculate_hash : N -> Z -> string -> string -> N -> list byte.

Lemma mine_loop_sound (fuel : nat) (id : N) (ts : Z) (prev dat : string) (k n : N)
    (h : string) :
  (k < 2 ^ 64)%N ->
  mine_loop calculate_hash fuel id ts prev dat k = Ok (n, h) ->
  (k <= n < 2 ^ 64)%N /\
  h = hex_encode (calculate_hash id ts prev dat n) /\
  meets_difficulty (calculate_hash id ts prev dat n) = true.
Proof.
  revert k. induction fuel as [|f IH]; intros k Hk Hr; [discriminate|].
  rewrite mine_loop_step in Hr.
  destruct (meets_difficulty (calculate_hash id ts prev dat k)) eqn:Em.
  - injection Hr as <- <-. repeat split; try assumption; lia.
  - unfold u64_add in Hr.
    destruct (N.ltb_spec (k + 1) (2 ^ 64)); simpl in Hr; [|discriminate].
    destruct (IH (k + 1)%N ltac:(lia) Hr) as [Hb [Hh Hm]].
    repeat split; try assumption; lia.
Qed.

(** Whatever [mine_block] returns passes the difficulty test: the hash is the
    hex encoding of [calculate_hash] at the returned nonce, that digest meets
    the difficulty, and the nonce is a u64. *)
Theorem mine_block_sound (fuel : nat) (id : N) (ts : Z) (prev dat : string)
    (n : N) (h : string) :
  mine_block calculate_hash fuel id ts prev dat = Ok (n, h) ->
  (n < 2 ^ 64)%N /\
  h = hex_encode (calculate_hash id ts prev dat n) /\
  exists d, hex_decode h = Some d /\ meets_difficulty d = true.
Proof.
  intro Hr. unfold mine_block in Hr.
  destruct (mine_loop_sound fuel id ts prev dat 0 n h ltac:(lia) Hr) as [Hb [Hh Hm]].
  split; [lia|]. split; [exact Hh|].
  exists (calculate_hash id ts prev dat n). split; [|exact Hm].
  rewrite Hh. apply hex_decode_encode.
Qed.

(** A block that [Block::new] mines on top of [p] (id [p.id + 1], previous
    hash [p.hash]) passes [is_block_valid] against [p]: local mining always
    produces a block that the validator of every node accepts. *)
Theorem Block_new_valid (fuel : nat) (now : Z) (p : Block) (dat : string) (b : Block) :
  (block_id p + 1 < 2 ^ 64)%N ->
  Block_new calculate_hash fuel now (block_id p + 1) (hash p) dat = Ok b ->
  is_block_valid calculate_hash b p = Ok true.
Proof.
  intros Hp Hb. unfold Block_new in Hb.
  destruct (mine_block calculate_hash fuel (block_id p + 1) now (hash p) dat)
    as [[n h]| |] eqn:Em; simpl in Hb; try discriminate.
  injection Hb as <-.
  destruct (mine_block_sound _ _ _ _ _ _ _ Em) as [_ [Hh [d [Hd Hmd]]]].
  apply is_block_valid_ok_true; simpl; [exact Hp|].
  split; [reflexivity|]. split; [now exists d|]. split; [reflexivity|].
  symmetry. exact Hh.
Qed.

End Mined.

(** ** Valid chains *)

Section Chains.

Variable calculate_hash : N -> Z -> string -> string -> N -> list byte.

Lemma is_block_valid_true_inv (b p : Block) :
  is_block_valid calculate_hash b p = Ok true ->
  prev_hash b = hash p /\
  (exists d, hex_decode (hash b) = Some d /\ meets_difficulty d = true) /\
  block_id b = (block_id p + 1)%N /\ (block_id p + 1 < 2 ^ 64)%N.
Proof.
  unfold is_block_valid.
  destruct (String.eqb_spec (prev_hash b) (hash p)) as [E1|E1]; simpl; [|discriminate].
  destruct (hex_decode (hash b)) as [d|] eqn:Ed; simpl; [|discriminate].
  change (starts_with (hash_to_binary_representation d) DIFFICULTY_PREFIX)
    with (meets_difficulty d).
  destruct (meets_difficulty d) eqn:Em; simpl; [|discriminate].
  unfold u64_add.
  destruct (N.ltb_spec (block_id p + 1) (2 ^ 64)); simpl; [|discriminate].
  destruct (N.eqb_spec (block_id b) (block_id p + 1)); simpl; [|discriminate].
  intros _. split; [exact E1|]. split; [now exists d|]. split; assumption.
Qed.

Lemma is_chain_valid_pairs (c : list Block) :
  is_chain_valid calculate_hash c = Ok true <->
  forall i, 1 <= i < List.length c -> pair_valid calculate_hash c i.
Proof.
  unfold is_chain_valid.
  destruct (List.length c) as [|n] eqn:Hlen.
  - simpl. split; [intros _ i Hi; lia|reflexivity].
  - cbn [seq chain_loop Nat.eqb].
    rewrite (chain_loop_ok_true calculate_hash c n 1 ltac:(lia) ltac:(lia)).
    split; intros H i Hi; apply H; lia.
Qed.

Lemma last_opt_nth {A : Type} (l : list A) :
  l <> [] -> last_opt l = nth_error l (List.length l - 1).
Proof.
  induction l as [|x t IH]; intro Hne; [contradiction|].
  destruct t as [|y t]; [reflexivity|].
  change (last_opt (y :: t) = nth_error (x :: y :: t) (S (List.length t))).
  rewrite IH by discriminate. simpl. rewrite Nat.sub_0_r. reflexivity.
Qed.

Lemma last_opt_snoc {A : Type} (l : list A) (x : A) : last_opt (l ++ [x]) = Some x.
Proof.
  rewrite last_opt_nth by (destruct l; discriminate).
  rewrite length_app. simpl. rewrite Nat.add_sub, nth_error_app2 by lia.
  rewrite Nat.sub_diag. reflexivity.
Qed.

(** Appending a block to a chain gives a valid chain iff the chain was valid
    and the block passes [is_block_valid] against the chain's last block (any
    block is accepted after the empty chain). *)
Theorem is_chain_valid_snoc (c : list Block) (b : Block) :
  is_chain_valid calculate_hash (c ++ [b]) = Ok true <->
  is_chain_valid calculate_hash c = Ok true /\
  (forall p, last_opt c = Some p -> is_block_valid calculate_hash b p = Ok true).
Proof.
  rewrite !is_chain_valid_pairs. rewrite length_app. simpl.
  split.
  - intros H. split.
    + intros i Hi. destruct (H i ltac:(lia)) as [p [b' [Hp [Hb Hv]]]].
      exists p, b'. rewrite nth_error_app1 in Hp, Hb by lia. repeat split; assumption.
    + intros p Hl.
      assert (Hne : c <> []) by (intro E; subst; discriminate).
      destruct (H (List.length c) ltac:(destruct c; [contradiction|simpl; lia]))
        as [p' [b' [Hp [Hb Hv]]]].
      rewrite nth_error_app1 in Hp by (destruct c; [contradiction|simpl; lia]).
      rewrite last_opt_nth in Hl by exact Hne. rewrite Hl in Hp. injection Hp as <-.
      rewrite nth_error_app2, Nat.sub_diag in Hb by lia. injection Hb as <-. exact Hv.
  - intros [H Hl] i Hi.
    destruct (Nat.eq_dec i (List.length c)) as [->|Hne].
    + assert (Hne : c <> []) by (intro E; subst; simpl in Hi; lia).
      destruct (nth_error_in_range c (List.length c - 1) ltac:(lia)) as [p Hp].
      exists p, b. split; [rewrite nth_error_app1 by lia; exact Hp|].
      split; [rewrite nth_error_app2, Nat.sub_diag by lia; reflexivity|].
      apply Hl. rewrite last_opt_nth by exact Hne. exact Hp.
    + destruct (H i ltac:(lia)) as [p [b' [Hp [Hb Hv]]]].
      exists p, b'. rewrite !nth_error_app1 by lia. repeat split; assumption.
Qed.

(** In a valid chain, each block after index 0 names its predecessor's hash,
    carries the next id, and has a hash that decodes to a digest beginning
    with two zero bytes; so the ids run consecutively from the first block's. *)
Theorem valid_chain_structure (c : list Block) :
  is_chain_valid calculate_hash c = Ok true ->
  (forall i p b, nth_error c i = Some p -> nth_error c (S i) = Some b ->
     prev_hash b = hash p /\ block_id b = (block_id p + 1)%N /\
     exists rest, hex_decode (hash b) = Some (x00 :: x00 :: rest)) /\
  (forall i b g, nth_error c 0 = Some g -> nth_error c i = Some b ->
     block_id b = (block_id g + N.of_nat i)%N).
Proof.
  intro Hv. rewrite is_chain_valid_pairs in Hv.
  assert (Hlink : forall i p b, nth_error c i = Some p -> nth_error c (S i) = Some b ->
     is_block_valid calculate_hash b p = Ok true).
  { intros i p b Hp Hb.
    assert (S i < List.length c) by (apply nth_error_Some; congruence).
    destruct (Hv (S i) ltac:(lia)) as [p' [b' [Hp' [Hb' Hv']]]].
    simpl in Hp'. rewrite Nat.sub_0_r in Hp'. congruence. }
  split.
  - intros i p b Hp Hb.
    destruct (is_block_valid_true_inv b p (Hlink i p b Hp Hb))
      as [E1 [[d [Hd Hm]] [E3 _]]].
    split; [exact E1|]. split; [exact E3|].
    apply meets_difficulty_two_zero_bytes in Hm. destruct Hm as [rest ->].
    now exists rest.
  - intros i. induction i as [|i IH]; intros b g Hg Hb.
    + rewrite Hg in Hb. injection Hb as <-. lia.
    + assert (Hi : i < List.length c)
        by (assert (S i < List.length c) by (apply nth_error_Some; congruence); lia).
      destruct (nth_error_in_range c i Hi) as [p Hp].
      destruct (is_block_valid_true_inv b p (Hlink i p b Hp Hb)) as [_ [_ [E3 _]]].
      rewrite E3, (IH p g Hg Hp). lia.
Qed.

(** [try_add_block] keeps a valid chain valid, and either leaves it as it was
    or appends exactly the received block. *)
Theorem try_add_block_preserves_valid (app app' : App) (b : Block) :
  is_chain_valid calculate_hash (blockchain app) = Ok true ->
  try_add_block calculate_hash app b = Ok app' ->
  is_chain_valid calculate_hash (blockchain app') = Ok true /\
  (blockchain app' = blockchain app \/ blockchain app' = (blockchain app ++ [b])%list).
Proof.
  intros Hv Ht. unfold try_add_block in Ht.
  destruct (last_opt (blockchain app)) as [p|] eqn:El; simpl in Ht; [|discriminate].
  destruct (is_block_valid calculate_hash b p) as [[|]| |] eqn:Eb; simpl in Ht;
    try discriminate; injection Ht as <-.
  - simpl. split; [|now right].
    apply is_chain_valid_snoc. split; [exact Hv|].
    intros p' Hp'. rewrite El in Hp'. injection Hp' as <-. exact Eb.
  - split; [exact Hv|now left].
Qed.

(** A command line never makes a valid chain invalid: only "create block"
    changes the chain, and the block it mines on top of the last block is
    valid against it. *)
Theorem handle_input_preserves_valid (fuel : nat) (now : Z) (line : string)
    (app app' : App) (out : list Published) :
  is_chain_valid calculate_hash (blockchain app) = Ok true ->
  handle_input calculate_hash fuel now line app = Ok (app', out) ->
  is_chain_valid calculate_hash (blockchain app') = Ok true.
Proof.
  intros Hv Hi. unfold handle_input in Hi.
  destruct (String.eqb line "ls peers"); [injection Hi as <- _; exact Hv|].
  destruct (starts_with line "ls chain"); [injection Hi as <- _; exact Hv|].
  destruct (starts_with line "create block"); [|injection Hi as <- _; exact Hv].
  unfold handle_create_block in Hi.
  destruct (strip_prefix line "create b") as [dat|]; [|injection Hi as <- _; exact Hv].
  destruct (last_opt (blockchain app)) as [p|] eqn:El; simpl in Hi; [|discriminate].
  unfold u64_add in Hi.
  destruct (N.ltb_spec (block_id p + 1) (2 ^ 64)) as [Hp|]; simpl in Hi; [|discriminate].
  destruct (Block_new calculate_hash fuel now (block_id p + 1) (hash p) dat)
    as [b| |] eqn:Eb; simpl in Hi; try discriminate.
  injection Hi as <- _. simpl.
  apply is_chain_valid_snoc. split; [exact Hv|].
  intros p' Hp'. rewrite El in Hp'. injection Hp' as <-.
  exact (Block_new_valid calculate_hash fuel now p dat b Hp Eb).
Qed.

(** [choose_chain], when it returns, returns one of its two arguments, that
    chain is valid, and it is never shorter than a valid local chain. *)
Theorem choose_chain_result (local remote c : list Block) :
  choose_chain calculate_hash local remote = Ok c ->
  (c = local \/ c = remote) /\
  is_chain_valid calculate_hash c = Ok true /\
  (is_chain_valid calculate_hash local = Ok true -> List.length local <= List.length c).
Proof.
  unfold choose_chain.
  destruct (is_chain_valid calculate_hash local) as [[|]| |] eqn:El; simpl;
    try discriminate;
  destruct (is_chain_valid calculate_hash remote) as [[|]| |] eqn:Er; simpl;
    try discriminate.
  - destruct (Nat.leb_spec (List.length remote) (List.length local)) as [Hle|Hlt];
      intro H; injection H as <-.
    + split; [now left|]. split; [exact El|]. intros _. lia.
    + split; [now right|]. split; [exact Er|]. intros _. lia.
  - intro H. injection H as <-. split; [now left|]. split; [exact El|]. intros _. lia.
  - intro H. injection H as <-. split; [now right|]. split; [exact Er|]. discriminate.
Qed.

(** A node whose chain is valid keeps a valid chain, and never a shorter one,
    through every gossip message it handles without panicking. *)
Theorem inject_floodsub_preserves_valid (me source : string) (msg : Payload)
    (app app' : App) (q : list (list Block * string)) :
  is_chain_valid calculate_hash (blockchain app) = Ok true ->
  inject_floodsub calculate_hash me source msg app = Ok (app', q) ->
  is_chain_valid calculate_hash (blockchain app') = Ok true /\
  List.length (blockchain app) <= List.length (blockchain app').
Proof.
  intros Hv Hi. destruct msg as [chain receiver|peer_id|b]; simpl in Hi.
  - destruct (String.eqb receiver me); [|injection Hi as <- _; split; [exact Hv|lia]].
    destruct (choose_chain calculate_hash (blockchain app) chain) as [c| |] eqn:Ec;
      simpl in Hi; try discriminate.
    injection Hi as <- _. simpl.
    destruct (choose_chain_result _ _ _ Ec) as [_ [Hc Hlen]].
    split; [exact Hc|]. exact (Hlen Hv).
  - destruct (String.eqb me peer_id); injection Hi as <- _; split; [exact Hv|lia|exact Hv|lia].
  - destruct (try_add_block calculate_hash app b) as [a| |] eqn:Et; simpl in Hi;
      try discriminate.
    injection Hi as <- _.
    destruct (try_add_block_preserves_valid app a b Hv Et) as [Ha [E|E]];
      (split; [exact Ha|rewrite E, ?length_app; simpl; lia]).
Qed.

Lemma is_chain_valid_first_false (c : list Block) (i : nat) (p b : Block) :
  1 <= i -> nth_error c (i - 1) = Some p -> nth_error c i = Some b ->
  (forall j, 1 <= j < i -> pair_valid calculate_hash c j) ->
  is_block_valid calculate_hash b p = Ok false ->
  is_chain_valid calculate_hash c = Ok false.
Proof.
  intros Hi Hp Hb Hbefore Hv. unfold is_chain_valid.
  assert (Hlt : i < List.length c) by (apply nth_error_Some; congruence).
  destruct (List.length c) as [|n] eqn:Hlen; [lia|].
  cbn [seq chain_loop Nat.eqb].
  apply (chain_loop_first_false calculate_hash c n 1 ltac:(lia) ltac:(lia) i p b);
    try assumption; lia.
Qed.

(** An Init on a valid chain that already holds a block (whose hash is not
    "---") leaves an invalid chain: the genesis block pushed last names "---"
    as its predecessor. *)
Theorem init_on_nonempty_chain_invalidates (now : Z) (peers : list string) (app : App)
    (p : Block) :
  is_chain_valid calculate_hash (blockchain app) = Ok true ->
  last_opt (blockchain app) = Some p -> hash p <> "---" ->
  is_chain_valid calculate_hash (blockchain (fst (handle_init now peers app))) = Ok false.
Proof.
  intros Hv Hl Hh.
  assert (Hc : blockchain (fst (handle_init now peers app)) =
               (blockchain app ++ [genesis_block now])%list).
  { unfold handle_init. destruct (last_opt peers); reflexivity. }
  rewrite Hc.
  assert (Hne : blockchain app <> []) by (intro E; rewrite E in Hl; discriminate).
  set (c := blockchain app) in *.
  assert (Hlen : 1 <= List.length c) by (destruct c; [contradiction|simpl; lia]).
  apply (is_chain_valid_first_false _ (List.length c) p (genesis_block now));
    [lia| | | |].
  - rewrite nth_error_app1 by lia. rewrite <- last_opt_nth by exact Hne. exact Hl.
  - rewrite nth_error_app2, Nat.sub_diag by lia. reflexivity.
  - intros j Hj. rewrite is_chain_valid_pairs in Hv.
    destruct (Hv j ltac:(lia)) as [p' [b' [Hp' [Hb' Hv']]]].
    exists p', b'. rewrite !nth_error_app1 by lia. repeat split; assumption.
  - unfold is_block_valid. change (prev_hash (genesis_block now)) with "---".
    destruct (String.eqb_spec "---" (hash p)) as [E|E]; [congruence|reflexivity].
Qed.

(** From process start (the empty chain), once the single Init event has
    pushed the genesis block, every run of the event loop that does not panic
    ends with a valid chain. *)
Theorem run_after_init_keeps_valid (now : Z) (peers : list string) (es : list Event)
    (app' : App) :
  forallb (fun e => negb (is_init e)) es = true ->
  run calculate_hash (EvInit now peers :: es) (mkApp []) = Ok app' ->
  is_chain_valid calculate_hash (blockchain app') = Ok true.
Proof.
  intros Hno Hr. simpl in Hr.
  assert (Hg : is_chain_valid calculate_hash
                 (blockchain (fst (handle_init now peers (mkApp [])))) = Ok true).
  { unfold handle_init. destruct (last_opt peers); reflexivity. }
  revert Hg Hr. generalize (fst (handle_init now peers (mkApp []))).
  induction es as [|e es IH]; intros a Hv Hr; simpl in Hr.
  - injection Hr as <-. exact Hv.
  - simpl in Hno. apply andb_prop in Hno. destruct Hno as [He Hno].
    destruct e as [fuel t line|chain receiver|t ps|me source msg]; simpl in Hr, He.
    + destruct (handle_input calculate_hash fuel t line a) as [[a1 o]| |] eqn:Ei;
        simpl in Hr; try discriminate.
      exact (IH Hno a1 (handle_input_preserves_valid fuel t line a a1 o Hv Ei) Hr).
    + exact (IH Hno a Hv Hr).
    + discriminate.
    + destruct (inject_floodsub calculate_hash me source msg a) as [[a1 q]| |] eqn:Ei;
        simpl in Hr; try discriminate.
      exact (IH Hno a1 (proj1 (inject_floodsub_preserves_valid me source msg a a1 q Hv Ei)) Hr).
Qed.

End Chains.

(** ** Peer discovery *)

Lemma In_add_node (q p : string) (v : list string) :
  In q (add_node_to_partial_view p v) <-> In q v \/ q = p.
Proof.
  unfold add_node_to_partial_view.
  destruct (existsb (String.eqb p) v) eqn:E.
  - apply existsb_exists in E. destruct E as [x [Hx Ex]].
    apply String.eqb_eq in Ex. subst x.
    split; [now left|intros [H| ->]; assumption].
  - rewrite in_app_iff. simpl. split; intros [H|H]; auto.
    + destruct H as [->|[]]. now right.
Qed.

Lemma NoDup_add_node (p : string) (v : list string) :
  NoDup v -> NoDup (add_node_to_partial_view p v).
Proof.
  intro Hv. unfold add_node_to_partial_view.
  destruct (existsb (String.eqb p) v) eqn:E; [exact Hv|].
  apply NoDup_app; [exact Hv|constructor; [intros []|constructor]|].
  intros x Hx [Ex | [] ]. subst x.
  assert (Hin : existsb (String.eqb p) v = true)
    by (apply existsb_exists; exists p; split; [exact Hx|apply String.eqb_refl]).
  congruence.
Qed.

Lemma In_remove_node (q p : string) (v : list string) :
  In q (remove_node_from_partial_view p v) <-> In q v /\ q <> p.
Proof.
  unfold remove_node_from_partial_view. rewrite filter_In.
  destruct (String.eqb_spec q p); simpl; intuition congruence.
Qed.

(** The mDNS handler: after a Discovered event the partial view holds exactly
    the peers it held plus the discovered ones, with no peer twice; after an
    Expired event an expired peer leaves the view only if discovery no longer
    reports it ([has_node] false), and no other peer is removed. *)
Theorem inject_mdns_view (has_node : string -> bool) (l : list (string * string))
    (view : list string) :
  (forall q, In q (inject_mdns has_node (Discovered l) view) <->
             In q view \/ In q (map fst l)) /\
  (NoDup view -> NoDup (inject_mdns has_node (Discovered l) view)) /\
  (forall q, In q (inject_mdns has_node (Expired l) view) <->
             In q view /\ (In q (map fst l) -> has_node q = true)).
Proof.
  simpl. split; [|split].
  - revert view. induction l as [|[p a] l IH]; intros view q; simpl.
    + tauto.
    + rewrite IH, In_add_node. intuition congruence.
  - revert view. induction l as [|[p a] l IH]; intros view Hv; simpl; [exact Hv|].
    apply IH, NoDup_add_node, Hv.
  - revert view. induction l as [|[p a] l IH]; intros view q; simpl.
    + tauto.
    + rewrite IH.
      destruct (has_node p) eqn:Hp; simpl.
      * split; [intros [H1 H2]; split; [exact H1|intros [->|H]; [exact Hp|auto]]|].
        intros [H1 H2]. auto.
      * rewrite In_remove_node.
        split.
        -- intros [[H1 H2] H3]. split; [exact H1|intros [->|H]; [contradiction|auto]].
        -- intros [H1 H2]. split; [split; [exact H1|]|auto].
           intros ->. specialize (H2 (or_introl eq_refl)). congruence.
Qed.

(** ** Worked instances of the further properties *)

Lemma mine_block_sound_witness :
  mine_block demo_hash 4 1 5 "Genesis Hash" "a" =
    Ok (3%N, hex_encode (demo_hash 1 5 "Genesis Hash" "a" 3)) /\
  exists d, hex_decode (hex_encode (demo_hash 1 5 "Genesis Hash" "a" 3)) = Some d /\
            meets_difficulty d = true.
Proof.
  assert (H : mine_block demo_hash 4 1 5 "Genesis Hash" "a" =
              Ok (3%N, hex_encode (demo_hash 1 5 "Genesis Hash" "a" 3)))
    by (vm_compute; reflexivity).
  split; [exact H|].
  exact (proj2 (proj2 (mine_block_sound demo_hash 4 1 5 "Genesis Hash" "a" _ _ H))).
Defined.

Lemma Block_new_valid_witness :
  Block_new demo_hash 4 5 (block_id demo_b1 + 1) (hash demo_b1) "b" = Ok demo_b2 /\
  is_block_valid demo_hash demo_b2 demo_b1 = Ok true.
Proof.
  assert (H : Block_new demo_hash 4 5 (block_id demo_b1 + 1) (hash demo_b1) "b" = Ok demo_b2)
    by (vm_compute; reflexivity).
  split; [exact H|].
  apply (Block_new_valid demo_hash 4 5 demo_b1 "b" demo_b2); [vm_compute; reflexivity|exact H].
Defined.

Lemma valid_chain_structure_witness :
  is_chain_valid demo_hash demo_chain3 = Ok true /\
  block_id demo_b2 = (block_id (genesis_block 0) + N.of_nat 2)%N.
Proof.
  assert (H : is_chain_valid demo_hash demo_chain3 = Ok true) by (vm_compute; reflexivity).
  split; [exact H|].
  exact (proj2 (valid_chain_structure demo_hash demo_chain3 H) 2 demo_b2 (genesis_block 0)
           eq_refl eq_refl).
Defined.

Lemma try_add_block_preserves_valid_witness :
  try_add_block demo_hash (mkApp demo_chain2) demo_b2 = Ok (mkApp demo_chain3) /\
  is_chain_valid demo_hash demo_chain3 = Ok true.
Proof.
  assert (Hv : is_chain_valid demo_hash demo_chain2 = Ok true) by (vm_compute; reflexivity).
  assert (Ht : try_add_block demo_hash (mkApp demo_chain2) demo_b2 = Ok (mkApp demo_chain3))
    by (vm_compute; reflexivity).
  split; [exact Ht|].
  exact (proj1 (try_add_block_preserves_valid demo_hash (mkApp demo_chain2)
                  (mkApp demo_chain3) demo_b2 Hv Ht)).
Defined.

Lemma handle_input_preserves_valid_witness :
  exists app' out,
    handle_input demo_hash 10 5 "create block x" (mkApp demo_chain2) = Ok (app', out) /\
    is_chain_valid demo_hash (blockchain app') = Ok true.
Proof.
  assert (Hv : is_chain_valid demo_hash demo_chain2 = Ok true) by (vm_compute; reflexivity).
  destruct (handle_input demo_hash 10 5 "create block x" (mkApp demo_chain2))
    as [[a o]| |] eqn:E; [|vm_compute in E; discriminate..].
  exists a, o. split; [reflexivity|].
  exact (handle_input_preserves_valid demo_hash 10 5 _ (mkApp demo_chain2) a o Hv E).
Defined.

Lemma choose_chain_result_witness :
  choose_chain demo_hash demo_chain3 demo_invalid_chain = Ok demo_chain3 /\
  is_chain_valid demo_hash demo_chain3 = Ok true.
Proof.
  assert (H : choose_chain demo_hash demo_chain3 demo_invalid_chain = Ok demo_chain3)
    by (vm_compute; reflexivity).
  split; [exact H|].
  exact (proj1 (proj2 (choose_chain_result demo_hash _ _ _ H))).
Defined.

Lemma inject_floodsub_preserves_valid_witness :
  inject_floodsub demo_hash "me" "peer" (PChainResponse demo_chain3 "me")
    (mkApp demo_chain2) = Ok (mkApp demo_chain3, []) /\
  List.length demo_chain2 <= List.length demo_chain3.
Proof.
  assert (Hv : is_chain_valid demo_hash demo_chain2 = Ok true) by (vm_compute; reflexivity).
  assert (H : inject_floodsub demo_hash "me" "peer" (PChainResponse demo_chain3 "me")
                (mkApp demo_chain2) = Ok (mkApp demo_chain3, []))
    by (vm_compute; reflexivity).
  split; [exact H|].
  exact (proj2 (inject_floodsub_preserves_valid demo_hash "me" "peer" _ (mkApp demo_chain2) _ _ Hv H)).
Defined.

Lemma init_on_nonempty_chain_invalidates_witness :
  is_chain_valid demo_hash (blockchain (fst (handle_init 9 [] (mkApp demo_chain2)))) =
    Ok false.
Proof.
  apply (init_on_nonempty_chain_invalidates demo_hash 9 [] (mkApp demo_chain2) demo_b1).
  - vm_compute. reflexivity.
  - reflexivity.
  - vm_compute. discriminate.
Defined.

Lemma run_after_init_keeps_valid_witness :
  exists app',
    run demo_hash [EvInit 0 []; EvInput 10 5 "create block hello";
                   EvGossip "me" "peer" (PBlock demo_bad_block)] (mkApp []) = Ok app' /\
    is_chain_valid demo_hash (blockchain app') = Ok true.
Proof.
  destruct (run demo_hash [EvInit 0 []; EvInput 10 5 "create block hello";
                           EvGossip "me" "peer" (PBlock demo_bad_block)] (mkApp []))
    as [a| |] eqn:E; [|vm_compute in E; discriminate..].
  exists a. split; [reflexivity|].
  exact (run_after_init_keeps_valid demo_hash 0 [] [EvInput 10 5 "create block hello"; EvGossip "me" "peer" (PBlock demo_bad_block)] a eq_refl E).
Defined.
